(** * FRA gluing algorithm: a shallow embedding of
    [fra_pipeline/scripts/fra_gluing_algorithm.py] and its properties.

    Python [dict]s are finite maps ([gmap]), Python [set]s are finite sets
    ([gset]), Python [int]s are [Z].  The process-wide generator of the
    [random] module is threaded explicitly through a small monad; the
    exceptions the script raises are values of [exn]. *)

From Stdlib Require Import ZArith Lia Bool SpecFloat.
From stdpp Require Import base tactics option list list_numbers sorting
  numbers gmap fin_sets fin_maps relations.

Local Open Scope Z_scope.

(** ** Exceptions *)

(** The text of a [ValueError]; the numbers interpolated by the f-strings
    are kept as arguments. *)
Inductive message :=
  | RanOutOfDistricts
  | CannotExpand (super_id : Z)
  | NotContiguous (super_id : Z)
  | CannotSatisfyRemaining
  | NoValidGrouping (max_attempts : Z)
  | CannotConvertNaN.

(** [ValueError msg cause]: [cause] is the [__cause__] set by
    [raise ... from e]. *)
#[warnings="-register-all"]
Inductive exn :=
  | ValueError (msg : message) (cause : option exn)
  | KeyError (key : Z)
  | IndexError
  | OverflowError
  | ZeroDivisionError.

(** What running a piece of the script yields.  [OutOfFuel] is not a Python
    outcome: it marks a loop of the model that ran out of fuel, and is
    shown below never to be produced. *)
Inductive outcome (A : Type) :=
  | Ok (a : A)
  | Raise (e : exn)
  | OutOfFuel.
Arguments Ok {A} a.
Arguments Raise {A} e.
Arguments OutOfFuel {A}.

#[export] Instance outcome_ret : MRet outcome := λ A, Ok.

#[export] Instance outcome_bind : MBind outcome := λ A B k m,
  match m with
  | Ok a => k a
  | Raise e => Raise e
  | OutOfFuel => OutOfFuel
  end.

(** A [for] loop whose body may raise: the state after the last element,
    or the first exception. *)
Fixpoint for_each {A S} (body : S → A → outcome S) (l : list A) (s : S)
    : outcome S :=
  match l with
  | [] => Ok s
  | x :: l => s ← body s x; for_each body l s
  end.

(** [d[k]] on a [dict] *)
Definition getitem {V} (d : gmap Z V) (k : Z) : outcome V :=
  match d !! k with
  | Some v => Ok v
  | None => Raise (KeyError k)
  end.

(** [l[i]] on a [list]: a negative index counts from the end. *)
Definition py_index {V} (l : list V) (i : Z) : outcome V :=
  let n := Z.of_nat (length l) in
  let j := if decide (i < 0) then i + n else i in
  if decide (0 ≤ j < n)
  then match l !! Z.to_nat j with
       | Some v => Ok v
       | None => Raise IndexError
       end
  else Raise IndexError.

(** ** Iteration over a [set] *)

(** The order in which a Python [set] yields its elements is not part of
    the language: [for x in s], [list(s)] and [next(iter(s))] give every
    element once, in an order the script has no say in.  [set_iter s] is
    that order; nothing but this law is used of it. *)
Class SetOrder := {
  set_iter : gset Z → list Z;
  set_iter_perm : ∀ s, set_iter s ≡ₚ elements s
}.

(** Ascending order, used to run the model on concrete inputs; it is the
    order of CPython for small sets of small non-negative integers. *)
Definition ascending : SetOrder :=
  {| set_iter := λ s, merge_sort Z.le (elements s);
     set_iter_perm := λ s, merge_sort_Permutation Z.le (elements s) |}.

(** ** Part 2 of the script: the district adjacency graph *)

(** [district_adj.get(d, set())] *)
Definition adj_get (district_adj : gmap Z (gset Z)) (d : Z) : gset Z :=
  default ∅ (district_adj !! d).

(** [district_adj[a].add(b)] on a [defaultdict(set)] *)
Definition add_neighbor (a b : Z) (district_adj : gmap Z (gset Z))
    : gmap Z (gset Z) :=
  <[a := adj_get district_adj a ∪ {[b]}]> district_adj.

Definition build_district_adjacency {Ord : SetOrder}
    (precinct_adj : gmap Z (gset Z)) (assignment : gmap Z Z)
    : outcome (gmap Z (gset Z)) :=
  for_each
    (λ district_adj '(precinct, neighbors),
       my_district ← getitem assignment precinct;
       for_each
         (λ district_adj neighbor,
            neighbor_district ← getitem assignment neighbor;
            if decide (my_district ≠ neighbor_district)
            then Ok (add_neighbor neighbor_district my_district
                       (add_neighbor my_district neighbor_district
                          district_adj))
            else Ok district_adj)
         (set_iter neighbors) district_adj)
    (map_to_list precinct_adj) ∅.

(** ** The [random] module *)

(** The generator is a library the script only calls: [random.seed] and
    [random.choice].  [rchoice g l] is the element picked from the
    non-empty sequence [l] together with the generator's next state. *)
Class RandomSource := {
  rng : Type;
  rseed : Z → rng;
  rchoice : rng → list Z → Z * rng;
  rchoice_elem : ∀ g l, l ≠ [] → (rchoice g l).1 ∈ l
}.

(** A linear congruential generator, used to run the model on concrete
    inputs. *)
Definition lcg_next (g : Z) : Z := (g * 1103515245 + 12345) `mod` 2147483648.

Definition lcg_choice (g : Z) (l : list Z) : Z * Z :=
  (nth (Z.to_nat (lcg_next g `mod` Z.of_nat (length l))) l 0, lcg_next g).

Lemma lcg_choice_elem g l : l ≠ [] → (lcg_choice g l).1 ∈ l.
Proof.
  intros Hl. unfold lcg_choice. simpl.
  apply list_elem_of_In, nth_In.
  assert (0 < length l)%nat by (destruct l; [done | simpl; lia]).
  pose proof (Z.mod_pos_bound (lcg_next g) (Z.of_nat (length l))). lia.
Qed.

Definition lcg : RandomSource :=
  {| rng := Z; rseed := λ s, s; rchoice := lcg_choice;
     rchoice_elem := lcg_choice_elem |}.

(** ** The state the script acts on *)

Section Script.
Context {R : RandomSource} {Ord : SetOrder}.

(** [gen] is the state of the module-level generator; [seed_calls] records
    the argument of every [random.seed] call, oldest first. *)
Record world := World { gen : rng; seed_calls : list Z }.

Definition M (A : Type) : Type := world → outcome A * world.

#[export] Instance M_ret : MRet M := λ A a w, (Ok a, w).

#[export] Instance M_bind : MBind M := λ A B k m w,
  match m w with
  | (Ok a, w') => k a w'
  | (Raise e, w') => (Raise e, w')
  | (OutOfFuel, w') => (OutOfFuel, w')
  end.

Definition raise {A} (e : exn) : M A := λ w, (Raise e, w).

Definition out_of_fuel {A} : M A := λ w, (OutOfFuel, w).

(** [random.seed(s)] *)
Definition random_seed (s : Z) : M unit :=
  λ w, (Ok (), World (rseed s) (seed_calls w ++ [s])).

(** [random.choice(seq)]; an empty sequence is an [IndexError]. *)
Definition random_choice (seq : list Z) : M Z :=
  λ w, match seq with
       | [] => (Raise IndexError, w)
       | _ => let '(x, g) := rchoice (gen w) seq in
              (Ok x, World g (seed_calls w))
       end.

(** [s.remove(x)]; an absent element is a [KeyError]. *)
Definition set_remove (x : Z) (s : gset Z) : M (gset Z) :=
  if decide (x ∈ s) then mret (s ∖ {[x]}) else raise (KeyError x).

(** ** Part 3 of the script: contiguity and feasibility *)

(** [len(s)] *)
Definition len (s : gset Z) : Z := Z.of_nat (size s).

(** The body of [for neighbor in district_adj.get(current, set())] in
    [is_connected]. *)
Definition visit (districts : gset Z) (st : gset Z * list Z) (neighbor : Z)
    : gset Z * list Z :=
  if decide (neighbor ∈ districts ∧ neighbor ∉ st.1)
  then (st.1 ∪ {[neighbor]}, st.2 ++ [neighbor])
  else st.

(** [while queue:] of [is_connected]; one unit of fuel per [popleft]. *)
Fixpoint bfs (fuel : nat) (district_adj : gmap Z (gset Z)) (districts : gset Z)
    (visited : gset Z) (queue : list Z) : option (gset Z) :=
  match queue with
  | [] => Some visited
  | current :: queue =>
      match fuel with
      | O => None
      | S fuel =>
          let st := foldl (visit districts) (visited, queue)
                      (set_iter (adj_get district_adj current)) in
          bfs fuel district_adj districts st.1 st.2
      end
  end.

Definition is_connected (districts : gset Z) (district_adj : gmap Z (gset Z))
    : bool :=
  match set_iter districts with
  | [] => true
  | start :: _ =>
      match bfs (size districts) district_adj districts {[start]} [start] with
      | Some visited => bool_decide (len visited = len districts)
      | None => false
      end
  end.

(** The body of the inner [for] of [can_satisfy_remaining]; the state is
    [(visited, component, queue)]. *)
Definition visit_component (unused : gset Z)
    (st : gset Z * gset Z * list Z) (neighbor : Z) : gset Z * gset Z * list Z :=
  let '(visited, component, queue) := st in
  if decide (neighbor ∈ unused ∧ neighbor ∉ visited)
  then (visited ∪ {[neighbor]}, component ∪ {[neighbor]}, queue ++ [neighbor])
  else st.

Fixpoint bfs_component (fuel : nat) (district_adj : gmap Z (gset Z))
    (unused : gset Z) (visited component : gset Z) (queue : list Z)
    : option (gset Z * gset Z) :=
  match queue with
  | [] => Some (visited, component)
  | current :: queue =>
      match fuel with
      | O => None
      | S fuel =>
          let '(visited, component, queue) :=
            foldl (visit_component unused) (visited, component, queue)
              (set_iter (adj_get district_adj current)) in
          bfs_component fuel district_adj unused visited component queue
      end
  end.

(** The body of [for start in unused]; the state is
    [(components, visited)]. *)
Definition component_step (district_adj : gmap Z (gset Z)) (unused : gset Z)
    (st : list (gset Z) * gset Z) (start : Z) : list (gset Z) * gset Z :=
  if decide (start ∈ st.2) then st
  else
    match bfs_component (size unused) district_adj unused
            (st.2 ∪ {[start]}) {[start]} [start] with
    | Some (visited, component) => (st.1 ++ [component], visited)
    | None => st
    end.

Definition find_components (district_adj : gmap Z (gset Z)) (unused : gset Z)
    : list (gset Z) :=
  (foldl (component_step district_adj unused) ([], ∅) (set_iter unused)).1.

(** [sorted(l, reverse=True)] *)
Definition sorted_desc (l : list Z) : list Z := merge_sort (flip Z.le) l.

(** [sum(l)] *)
Definition py_sum (l : list Z) : Z := foldr Z.add 0 l.

Definition can_satisfy_remaining (unused : gset Z)
    (district_adj : gmap Z (gset Z)) (remaining_sizes : list Z) : bool :=
  match remaining_sizes with
  | [] => bool_decide (len unused = 0)
  | _ =>
      let components := find_components district_adj unused in
      let component_sizes := sorted_desc (len <$> components) in
      let required_sizes := sorted_desc remaining_sizes in
      if negb (bool_decide (py_sum component_sizes = py_sum required_sizes))
      then false
      else
        match component_sizes, required_sizes with
        | c :: _, r :: _ => if bool_decide (c < r) then false else true
        | _, _ => true
        end
  end.

(** ** The gluing engine *)

(** The body of [for neighbor in district_adj.get(dist, set())] in
    [_try_gluing]. *)
Definition add_candidate (unused candidates : gset Z) (neighbor : Z) : gset Z :=
  if decide (neighbor ∈ unused) then candidates ∪ {[neighbor]} else candidates.

(** [candidates] after the two nested [for] loops. *)
Definition find_candidates (district_adj : gmap Z (gset Z))
    (current_group unused : gset Z) : gset Z :=
  foldl (λ candidates dist,
           foldl (add_candidate unused) candidates
             (set_iter (adj_get district_adj dist)))
    ∅ (set_iter current_group).

(** [while len(current_group) < target_size:]; one unit of fuel per
    iteration.  Returns [(current_group, unused)]. *)
Fixpoint grow (fuel : nat) (district_adj : gmap Z (gset Z))
    (super_id target_size : Z) (current_group unused : gset Z)
    : M (gset Z * gset Z) :=
  if decide (len current_group < target_size) then
    match fuel with
    | O => out_of_fuel
    | S fuel =>
        let candidates := find_candidates district_adj current_group unused in
        if decide (candidates = ∅)
        then raise (ValueError (CannotExpand super_id) None)
        else
          new_district ← random_choice (set_iter candidates);
          unused ← set_remove new_district unused;
          grow fuel district_adj super_id target_size
            (current_group ∪ {[new_district]}) unused
    end
  else mret (current_group, unused).

(** [for dist in current_group: district_to_super[dist] = super_id] *)
Definition assign_group (current_group : gset Z) (super_id : Z)
    (district_to_super : gmap Z Z) : gmap Z Z :=
  foldl (λ m dist, <[dist := super_id]> m) district_to_super
    (set_iter current_group).

(** [for super_id, target_size in enumerate(target_sizes)], entered at
    index [super_id] with [targets = target_sizes[super_id:]], so that the
    tail of [targets] is [target_sizes[super_id + 1:]]. *)
Fixpoint build_super_districts (district_adj : gmap Z (gset Z))
    (targets : list Z) (super_id : Z) (unused : gset Z)
    (district_to_super : gmap Z Z) : M (gmap Z Z) :=
  match targets with
  | [] => mret district_to_super
  | target_size :: remaining_targets =>
      if decide (unused = ∅)
      then raise (ValueError RanOutOfDistricts None)
      else
        seed_district ← random_choice (set_iter unused);
        unused ← set_remove seed_district unused;
        '(current_group, unused) ←
          grow (S (size unused)) district_adj super_id target_size
            {[seed_district]} unused;
        if negb (is_connected current_group district_adj)
        then raise (ValueError (NotContiguous super_id) None)
        else if negb (can_satisfy_remaining unused district_adj
                        remaining_targets)
        then raise (ValueError CannotSatisfyRemaining None)
        else
          build_super_districts district_adj remaining_targets (super_id + 1)
            unused (assign_group current_group super_id district_to_super)
  end.

(** [set(range(num_districts))] *)
Definition all_districts (num_districts : Z) : gset Z :=
  list_to_set (seqZ 0 num_districts).

Definition _try_gluing (district_adj : gmap Z (gset Z))
    (target_sizes : list Z) (num_districts seed : Z) : M (gmap Z Z) :=
  _ ← random_seed seed;
  build_super_districts district_adj target_sizes 0
    (all_districts num_districts) ∅.

Definition max_attempts : Z := 100.

(** [for attempt in range(max_attempts): try ... except ValueError]; the
    list is what is left of the range.  A loop that runs off its range makes
    the function return [None]. *)
Fixpoint attempt_loop (attempts : list Z) (district_adj : gmap Z (gset Z))
    (target_sizes : list Z) (num_districts seed : Z)
    : M (option (gmap Z Z)) :=
  match attempts with
  | [] => mret None
  | attempt :: attempts => λ w,
      match _try_gluing district_adj target_sizes num_districts
              (seed + attempt) w with
      | (Ok district_to_super, w) => (Ok (Some district_to_super), w)
      | (Raise (ValueError msg cause), w) =>
          if decide (attempt < max_attempts - 1)
          then attempt_loop attempts district_adj target_sizes num_districts
                 seed w
          else (Raise (ValueError (NoValidGrouping max_attempts)
                         (Some (ValueError msg cause))), w)
      | (Raise e, w) => (Raise e, w)
      | (OutOfFuel, w) => (OutOfFuel, w)
      end
  end.

Definition glue_districts_greedy (district_adj : gmap Z (gset Z))
    (target_sizes : list Z) (num_districts seed : Z)
    : M (option (gmap Z Z)) :=
  _ ← random_seed seed;
  attempt_loop (seqZ 0 max_attempts) district_adj target_sizes num_districts
    seed.

End Script.

(** ** Python numbers *)

(** Python's [float] is IEEE 754 binary64. *)
Definition prec : Z := 53.
Definition emax : Z := 1024.

(** The two kinds of number the script computes with. *)
Inductive number :=
  | PyInt (z : Z)
  | PyFloat (f : spec_float).

(** An integer as an unrounded mantissa with exponent [0]. *)
Definition exact (n : Z) : spec_float :=
  match n with
  | Z0 => S754_zero false
  | Zpos p => S754_finite false p 0
  | Zneg p => S754_finite true p 0
  end.

(** [float(n)]: the nearest binary64, ties to even; an [OverflowError] when
    that is out of range. *)
Definition float_of_int (n : Z) : outcome spec_float :=
  match binary_normalize prec emax n 0 false with
  | S754_infinity _ => Raise OverflowError
  | f => Ok f
  end.

(** [a / b] on two [int]s: the correctly rounded quotient. *)
Definition int_truediv (a b : Z) : outcome spec_float :=
  if decide (b = 0) then Raise ZeroDivisionError
  else
    match SFdiv prec emax (exact a) (exact b) with
    | S754_infinity _ => Raise OverflowError
    | f => Ok f
    end.

(** [x * n] for an [int] [n] *)
Definition py_mul (x : number) (n : Z) : outcome number :=
  match x with
  | PyInt z => Ok (PyInt (z * n))
  | PyFloat f => y ← float_of_int n; Ok (PyFloat (SFmul prec emax f y))
  end.

(** The integer nearest to [m * 2 ^ e] for [0 ≤ m], ties to even. *)
Definition round_half_even (m e : Z) : Z :=
  if decide (0 ≤ e) then m * 2 ^ e
  else
    let d := 2 ^ (- e) in
    let q := m `div` d in
    match 2 * (m `mod` d) ?= d with
    | Lt => q
    | Gt => q + 1
    | Eq => if Z.even q then q else q + 1
    end.

(** [round(x)] with one argument *)
Definition py_round (x : number) : outcome Z :=
  match x with
  | PyInt z => Ok z
  | PyFloat (S754_zero _) => Ok 0
  | PyFloat (S754_finite s m e) => Ok (cond_Zopp s (round_half_even (Zpos m) e))
  | PyFloat (S754_infinity _) => Raise OverflowError
  | PyFloat S754_nan => Raise (ValueError CannotConvertNaN None)
  end.

(** ** Part 4 of the script: aggregation *)

(** The columns of a row of the GeoDataFrame that the script reads. *)
Record precinct_row := PrecinctRow {
  TOTPOP : Z;
  G24PREDHAR : Z;
  G24PRERTRU : Z
}.

(** The running totals held in [super_districts]. *)
Record tally := Tally {
  tally_dem_votes : Z;
  tally_rep_votes : Z;
  tally_population : Z;
  tally_precincts : list Z
}.

(** What the [defaultdict]'s factory makes. *)
Definition empty_tally : tally := Tally 0 0 0 [].

(** An entry of the dictionary that is returned. *)
Record superdistrict := SuperDistrict {
  superdistrict_id : Z;
  dem_votes : Z;
  rep_votes : Z;
  population : Z;
  dem_share : number;
  num_precincts : Z;
  precincts : list Z
}.

(** The first loop: [precinct_to_super]. *)
Definition map_precincts (assignment district_to_super : gmap Z Z)
    : outcome (gmap Z Z) :=
  for_each
    (λ precinct_to_super '(precinct, district),
       super_id ← getitem district_to_super district;
       Ok (<[precinct := super_id]> precinct_to_super))
    (map_to_list assignment) ∅.

(** The body of [for precinct_idx in gdf.index]; the frame is the list of
    its rows, each with its index label. *)
Definition add_precinct (precinct_to_super : gmap Z Z)
    (super_districts : gmap Z tally) (entry : Z * precinct_row)
    : gmap Z tally :=
  let '(precinct_idx, row) := entry in
  match precinct_to_super !! precinct_idx with
  | Some super_id =>
      let t := default empty_tally (super_districts !! super_id) in
      <[super_id :=
          Tally (tally_dem_votes t + G24PREDHAR row)
                (tally_rep_votes t + G24PRERTRU row)
                (tally_population t + TOTPOP row)
                (tally_precincts t ++ [precinct_idx])]> super_districts
  | None => super_districts
  end.

(** The body of [for super_id, data in super_districts.items()]. *)
Definition summarise (super_id : Z) (data : tally) : outcome superdistrict :=
  let total_votes := tally_dem_votes data + tally_rep_votes data in
  share ← (if decide (total_votes > 0)
           then q ← int_truediv (tally_dem_votes data) total_votes;
                Ok (PyFloat q)
           else Ok (PyInt 0));
  Ok (SuperDistrict super_id (tally_dem_votes data) (tally_rep_votes data)
        (tally_population data) share
        (Z.of_nat (length (tally_precincts data))) (tally_precincts data)).

Definition aggregate_precincts_to_superdistricts
    (gdf : list (Z * precinct_row)) (assignment district_to_super : gmap Z Z)
    : outcome (gmap Z superdistrict) :=
  precinct_to_super ← map_precincts assignment district_to_super;
  let super_districts := foldl (add_precinct precinct_to_super) ∅ gdf in
  for_each
    (λ result '(super_id, data),
       entry ← summarise super_id data;
       Ok (<[super_id := entry]> result))
    (map_to_list super_districts) ∅.

(** ** Part 5 of the script: seat allocation *)

(** An entry after the three seat fields have been added to it. *)
Record allocation := Allocation {
  alloc_data : superdistrict;
  total_seats : Z;
  dem_seats : Z;
  rep_seats : Z
}.

(** The body of [for super_id, data in super_districts_data.items()]. *)
Definition allocate_one (target_sizes : list Z) (super_id : Z)
    (data : superdistrict) : outcome allocation :=
  total_seats ← py_index target_sizes super_id;
  product ← py_mul (dem_share data) total_seats;
  dem_seats ← py_round product;
  let rep_seats := total_seats - dem_seats in
  Ok (Allocation data total_seats dem_seats rep_seats).

Definition allocate_seats_proportionally
    (super_districts_data : gmap Z superdistrict) (target_sizes : list Z)
    : outcome (gmap Z allocation) :=
  for_each
    (λ result '(super_id, data),
       entry ← allocate_one target_sizes super_id data;
       Ok (<[super_id := entry]> result))
    (map_to_list super_districts_data) ∅.

(** ** Notions used to state the properties *)

(** An edge of the adjacency between two members of [districts]. *)
Definition edge_in (district_adj : gmap Z (gset Z)) (districts : gset Z)
    (u v : Z) : Prop :=
  u ∈ districts ∧ v ∈ districts ∧ v ∈ adj_get district_adj u.

(** [v] is reached from [u] along edges that stay inside [districts]. *)
Definition reachable_in (district_adj : gmap Z (gset Z))
    (districts : gset Z) : relation Z :=
  rtc (edge_in district_adj districts).

(** Every edge inside [districts] has its reverse. *)
Definition symmetric_in (district_adj : gmap Z (gset Z))
    (districts : gset Z) : Prop :=
  ∀ u v, edge_in district_adj districts u v →
         edge_in district_adj districts v u.

(** * Properties *)

(** ** The monad *)

Section MonadFacts.
Context {R : RandomSource}.

Lemma bind_Ok_inv {A B} (m : M A) (k : A → M B) w b w' :
  (m ≫= k) w = (Ok b, w') →
  ∃ a w1, m w = (Ok a, w1) ∧ k a w1 = (Ok b, w').
Proof.
  unfold mbind, M_bind. destruct (m w) as [[a|e|] w1]; intros H;
    [eauto | done | done].
Qed.

Lemma random_choice_Ok_inv seq w x w' :
  random_choice seq w = (Ok x, w') →
  x ∈ seq ∧ seed_calls w' = seed_calls w.
Proof.
  unfold random_choice. destruct seq as [|y seq]; [done|].
  pose proof (rchoice_elem (gen w) (y :: seq)) as Hin.
  destruct (rchoice (gen w) (y :: seq)) as [x' g]. intros [= <- <-].
  split; [by apply Hin | done].
Qed.

Lemma set_remove_Ok_inv x s w s' w' :
  set_remove x s w = (Ok s', w') → x ∈ s ∧ s' = s ∖ {[x]} ∧ w' = w.
Proof.
  unfold set_remove. case_decide; [|done]. by intros [= <- <-].
Qed.

(** A computation whose result and next generator state depend on the
    world only through the generator. *)
Definition log_indep {A} (m : M A) : Prop :=
  ∀ w w', gen w = gen w' →
    (m w).1 = (m w').1 ∧ gen (m w).2 = gen (m w').2.

(** A computation that calls [random.seed] with [calls], in this order. *)
Definition logs {A} (m : M A) (calls : list Z) : Prop :=
  ∀ w, seed_calls (m w).2 = seed_calls w ++ calls.

Lemma log_indep_ret {A} (a : A) : log_indep (mret a).
Proof. by intros w w' Hg. Qed.

Lemma log_indep_raise {A} e : log_indep (@raise _ A e).
Proof. by intros w w' Hg. Qed.

Lemma log_indep_out_of_fuel {A} : log_indep (@out_of_fuel _ A).
Proof. by intros w w' Hg. Qed.

Lemma log_indep_bind {A B} (m : M A) (k : A → M B) :
  log_indep m → (∀ a, log_indep (k a)) → log_indep (m ≫= k).
Proof.
  intros Hm Hk w w' Hg. destruct (Hm w w' Hg) as [H1 H2].
  unfold mbind, M_bind.
  destruct (m w) as [o w1], (m w') as [o' w1']. simpl in *. subst o'.
  destruct o as [a|e|]; [by apply Hk | done | done].
Qed.

Lemma log_indep_random_seed s : log_indep (random_seed s).
Proof. by intros w w' Hg. Qed.

Lemma log_indep_random_choice seq : log_indep (random_choice seq).
Proof.
  intros w w' Hg. unfold random_choice. destruct seq as [|y seq]; [done|].
  rewrite Hg. by destruct (rchoice (gen w') (y :: seq)).
Qed.

Lemma log_indep_set_remove x s : log_indep (set_remove x s).
Proof. unfold set_remove. case_decide; by intros w w' Hg. Qed.

Lemma logs_ret {A} (a : A) : logs (mret a) [].
Proof. intros w. simpl. by rewrite app_nil_r. Qed.

Lemma logs_raise {A} e : logs (@raise _ A e) [].
Proof. intros w. simpl. by rewrite app_nil_r. Qed.

Lemma logs_out_of_fuel {A} : logs (@out_of_fuel _ A) [].
Proof. intros w. simpl. by rewrite app_nil_r. Qed.

Lemma logs_bind_nil {A B} (m : M A) (k : A → M B) :
  logs m [] → (∀ a, logs (k a) []) → logs (m ≫= k) [].
Proof.
  intros Hm Hk w. specialize (Hm w). unfold mbind, M_bind.
  destruct (m w) as [[a|e|] w1]; simpl in *; [|done|done].
  rewrite (Hk a w1), Hm. by rewrite !app_nil_r.
Qed.

Lemma logs_random_choice seq : logs (random_choice seq) [].
Proof.
  intros w. unfold random_choice. rewrite app_nil_r.
  destruct seq as [|y seq]; [done|].
  by destruct (rchoice (gen w) (y :: seq)).
Qed.

Lemma logs_set_remove x s : logs (set_remove x s) [].
Proof.
  unfold set_remove. case_decide; [apply logs_ret | apply logs_raise].
Qed.

End MonadFacts.

(** ** The growth loop *)

Section GluingFacts.
Context {R : RandomSource} {Ord : SetOrder}.
Implicit Types (district_adj : gmap Z (gset Z)) (unused : gset Z).

Lemma elem_of_set_iter (s : gset Z) x : x ∈ set_iter s ↔ x ∈ s.
Proof. by rewrite set_iter_perm, elem_of_elements. Qed.

Lemma NoDup_set_iter (s : gset Z) : NoDup (set_iter s).
Proof. rewrite set_iter_perm. apply NoDup_elements. Qed.

Lemma set_iter_nil_inv (s : gset Z) : set_iter s = [] → s = ∅.
Proof.
  intros Hnil. apply leibniz_equiv, elements_empty_inv.
  apply Permutation_nil_r. by rewrite <- set_iter_perm, Hnil.
Qed.

Lemma len_nonneg (s : gset Z) : 0 ≤ len s.
Proof. unfold len. lia. Qed.

Lemma len_empty_iff (s : gset Z) : len s = 0 ↔ s = ∅.
Proof.
  unfold len. split.
  - intros H. apply leibniz_equiv, size_empty_iff. lia.
  - intros ->. by rewrite size_empty.
Qed.

Lemma len_union_singleton (s : gset Z) x : x ∉ s → len (s ∪ {[x]}) = len s + 1.
Proof.
  intros Hx. unfold len. rewrite size_union by set_solver.
  rewrite size_singleton. lia.
Qed.

Lemma elem_of_add_candidates unused candidates l n :
  n ∈ foldl (add_candidate unused) candidates l ↔
  n ∈ candidates ∨ (n ∈ l ∧ n ∈ unused).
Proof.
  revert candidates. induction l as [|x l IH]; intros candidates; simpl.
  - set_solver.
  - rewrite IH. unfold add_candidate. case_decide; set_solver.
Qed.

Lemma elem_of_find_candidates district_adj current_group unused n :
  n ∈ find_candidates district_adj current_group unused ↔
  n ∈ unused ∧ ∃ d, d ∈ current_group ∧ n ∈ adj_get district_adj d.
Proof.
  unfold find_candidates.
  assert (∀ l candidates,
    n ∈ foldl (λ candidates dist,
                 foldl (add_candidate unused) candidates
                   (set_iter (adj_get district_adj dist))) candidates l ↔
    n ∈ candidates ∨
    (n ∈ unused ∧ ∃ d, d ∈ l ∧ n ∈ adj_get district_adj d)) as Hgen.
  { induction l as [|x l IH]; intros candidates; simpl.
    - set_solver.
    - rewrite IH, elem_of_add_candidates, elem_of_set_iter.
      split.
      + intros [[?|[??]]|(? & d & ? & ?)]; [by left | right..].
        * split; [done|]. exists x. set_solver.
        * split; [done|]. exists d. set_solver.
      + intros [?|(? & d & [->|?]%elem_of_cons & ?)]; [by left; left | |].
        * left. by right.
        * right. eauto. }
  rewrite Hgen. setoid_rewrite elem_of_set_iter. set_solver.
Qed.

Lemma find_candidates_subseteq district_adj current_group unused :
  find_candidates district_adj current_group unused ⊆ unused.
Proof. intros n Hn. by apply elem_of_find_candidates in Hn as [? _]. Qed.

(** What a successful run of the growth loop returns. *)
Lemma grow_Ok_inv district_adj super_id target_size fuel :
  ∀ current_group unused w group' unused' w',
    grow fuel district_adj super_id target_size current_group unused w
      = (Ok (group', unused'), w') →
    current_group ## unused →
    current_group ⊆ group' ∧ group' ## unused' ∧
    group' ∪ unused' = current_group ∪ unused ∧
    len group' = Z.max (len current_group) target_size.
Proof.
  induction fuel as [|fuel IH]; intros G U w G' U' w' Hrun Hdisj;
    simpl in Hrun; case_decide as Hlt.
  - done.
  - injection Hrun as <- <- <-. repeat split; [done..| lia].
  - case_decide as Hc; [done|].
    apply bind_Ok_inv in Hrun as (nd & w1 & Hch & Hrun).
    apply bind_Ok_inv in Hrun as (U1 & w2 & Hrm & Hrun).
    apply random_choice_Ok_inv in Hch as [Hnd _].
    apply set_remove_Ok_inv in Hrm as (HndU & -> & ->).
    apply IH in Hrun as (Hsub & Hdisj' & Hcover & Hlen); [|set_solver].
    assert (nd ∉ G) by set_solver.
    rewrite len_union_singleton in Hlen by done.
    repeat split; [set_solver | done | | lia].
    rewrite Hcover. apply set_eq. intros x.
    destruct (decide (x = nd)); set_solver.
  - injection Hrun as <- <- <-. repeat split; [done..| lia].
Qed.

(** With the fuel it is given, the growth loop ends: it returns or raises
    the "cannot expand" error. *)
Lemma grow_outcome district_adj super_id target_size fuel :
  ∀ current_group unused w,
    (size unused < fuel)%nat →
    match (grow fuel district_adj super_id target_size current_group
             unused w).1 with
    | Ok _ => True
    | Raise e => e = ValueError (CannotExpand super_id) None
    | OutOfFuel => False
    end.
Proof.
  induction fuel as [|fuel IH]; intros G U w Hfuel; [lia|].
  simpl. case_decide as Hlt; [|done].
  case_decide as Hc; [done|].
  unfold mbind, M_bind.
  destruct (random_choice _ w) as [[nd|e|] w1] eqn:Hch.
  - apply random_choice_Ok_inv in Hch as [Hnd _].
    apply elem_of_set_iter, find_candidates_subseteq in Hnd.
    unfold set_remove. rewrite decide_True by done. simpl.
    apply IH. rewrite size_difference by set_solver.
    rewrite size_singleton.
    assert (size U ≠ 0)%nat by (apply size_non_empty_iff; set_solver). lia.
  - unfold random_choice in Hch.
    destruct (set_iter _) as [|y l] eqn:Hel.
    + apply set_iter_nil_inv in Hel. done.
    + by destruct (rchoice (gen w) (y :: l)).
  - unfold random_choice in Hch.
    destruct (set_iter _) as [|y l]; [done|].
    by destruct (rchoice (gen w) (y :: l)).
Qed.

Lemma lookup_assign_group current_group super_id district_to_super d :
  assign_group current_group super_id district_to_super !! d =
  if decide (d ∈ current_group) then Some super_id
  else district_to_super !! d.
Proof.
  unfold assign_group.
  assert (∀ l (m : gmap Z Z),
    foldl (λ m dist, <[dist := super_id]> m) m l !! d =
    if decide (d ∈ l) then Some super_id else m !! d) as Hgen.
  { induction l as [|x l IH]; intros m; cbn [foldl].
    - case_decide; [set_solver | done].
    - rewrite IH. destruct (decide (d = x)) as [->|Hne].
      + rewrite lookup_insert_eq. repeat case_decide; set_solver.
      + rewrite lookup_insert_ne by done. repeat case_decide; set_solver. }
  rewrite Hgen. case_decide as H1; case_decide as H2; try done;
    rewrite elem_of_set_iter in H1; done.
Qed.

(** ** One attempt *)

(** The districts that [district_to_super] sends to [super_id]. *)
Definition group_of (district_to_super : gmap Z Z) (super_id : Z) : gset Z :=
  dom (filter (λ kv, kv.2 = super_id) district_to_super).

Lemma elem_of_group_of (m : gmap Z Z) i d : d ∈ group_of m i ↔ m !! d = Some i.
Proof.
  unfold group_of. rewrite elem_of_dom. unfold is_Some.
  setoid_rewrite map_lookup_filter_Some. simpl. naive_solver.
Qed.

Lemma can_satisfy_remaining_nil unused district_adj :
  can_satisfy_remaining unused district_adj [] = true → unused = ∅.
Proof. simpl. intros H%bool_decide_eq_true. by apply len_empty_iff. Qed.

Lemma py_sum_cons x l : py_sum (x :: l) = x + py_sum l.
Proof. done. Qed.

(** The invariant of the [for] loop of [_try_gluing], read off a successful
    run that enters the loop at [super_id]. *)
Lemma build_super_districts_Ok_inv district_adj targets :
  ∀ super_id unused district_to_super w result w',
    build_super_districts district_adj targets super_id unused
      district_to_super w = (Ok result, w') →
    dom district_to_super ## unused →
    (∀ d i, district_to_super !! d = Some i → i < super_id) →
    (∀ d i, district_to_super !! d = Some i → result !! d = Some i) ∧
    dom result ⊆ dom district_to_super ∪ unused ∧
    (targets ≠ [] → dom result = dom district_to_super ∪ unused) ∧
    (targets ≠ [] → len unused = py_sum (Z.max 1 <$> targets)) ∧
    (∀ d i, result !! d = Some i →
       district_to_super !! d = Some i ∨
       super_id ≤ i < super_id + Z.of_nat (length targets)) ∧
    (∀ (j : nat) t, targets !! j = Some t →
       len (group_of result (super_id + Z.of_nat j)) = Z.max 1 t ∧
       is_connected (group_of result (super_id + Z.of_nat j)) district_adj
         = true).
Proof.
  induction targets as [|t rest IH];
    intros sid U d2s w m w' Hrun Hdisj Hold;
    cbn [build_super_districts] in Hrun.
  - injection Hrun as <- <-.
    repeat split; [done | set_solver | done | done | by left | done | done].
  - case_decide as Hne; [done|].
    apply bind_Ok_inv in Hrun as (s & w1 & Hch & Hrun).
    apply bind_Ok_inv in Hrun as (U0 & w2 & Hrm & Hrun).
    apply bind_Ok_inv in Hrun as ([G U1] & w3 & Hgrow & Hrun).
    apply random_choice_Ok_inv in Hch as [Hs%elem_of_set_iter _].
    apply set_remove_Ok_inv in Hrm as (_ & -> & ->).
    apply grow_Ok_inv in Hgrow as (HsG & HGU1 & Hcover & HlenG);
      [|clear; set_solver].
    destruct (is_connected G district_adj) eqn:Hconn; [|done].
    destruct (can_satisfy_remaining U1 district_adj rest) eqn:Hsat; [|done].
    cbn [negb] in Hrun.
    assert (G ∪ U1 = U) as HGU.
    { rewrite Hcover. clear -Hs. apply set_eq. intros x.
      destruct (decide (x = s)); set_solver. }
    assert (len G = Z.max 1 t) as HlenG'.
    { rewrite HlenG. unfold len at 1. by rewrite size_singleton. }
    assert (dom (assign_group G sid d2s) = dom d2s ∪ G) as Hdom1.
    { apply set_eq. intros x. rewrite elem_of_dom, lookup_assign_group.
      case_decide; rewrite elem_of_union, elem_of_dom; naive_solver. }
    apply IH in Hrun as (Hext & Hsub & Hall & Hsize & Hval & Hgrp).
    2: { rewrite Hdom1. clear -Hdisj HGU HGU1. set_solver. }
    2: { intros d i. rewrite lookup_assign_group. case_decide.
         - intros [= <-]. lia.
         - intros Hd%Hold. lia. }
    assert (∀ d i, d2s !! d = Some i → m !! d = Some i) as Hext'.
    { intros d i Hd. apply Hext. rewrite lookup_assign_group.
      rewrite decide_False; [done|].
      assert (d ∈ dom d2s) as Hdd by (apply elem_of_dom; eauto).
      clear -Hdd Hdisj HGU. set_solver. }
    assert (dom m = dom d2s ∪ U) as Hdomm.
    { destruct rest as [|t' rest'].
      - apply can_satisfy_remaining_nil in Hsat. subst U1.
        simpl in Hsub. apply set_eq. intros x.
        split; [clear -Hsub Hdom1 HGU; set_solver|].
        intros Hx. apply elem_of_dom.
        destruct (decide (x ∈ G)) as [HxG|HxG].
        + exists sid. apply Hext. rewrite lookup_assign_group.
          by rewrite decide_True.
        + assert (x ∈ dom d2s) as [i Hi]%elem_of_dom
            by (clear -Hx HxG HGU; set_solver).
          exists i. by apply Hext'.
      - rewrite Hall by done. rewrite Hdom1. clear -HGU. set_solver. }
    split; [done|]. split; [by rewrite Hdomm|]. split; [done|].
    split; [|split].
    + intros _. rewrite fmap_cons, py_sum_cons, <- HlenG', <- HGU.
      unfold len. rewrite size_union by done.
      destruct rest as [|t' rest'].
      * apply can_satisfy_remaining_nil in Hsat. subst U1.
        rewrite size_empty. simpl. lia.
      * specialize (Hsize ltac:(done)). unfold len in Hsize. lia.
    + intros d i Hd. apply Hval in Hd as [Hd|Hd].
      * rewrite lookup_assign_group in Hd. case_decide.
        -- injection Hd as <-. right. cbn [length]. lia.
        -- by left.
      * right. cbn [length]. lia.
    + assert (group_of m sid = G) as HG.
      { apply set_eq. intros d. rewrite elem_of_group_of. split.
        - intros Hd. apply Hval in Hd as [Hd|Hd]; [|lia].
          rewrite lookup_assign_group in Hd. case_decide; [done|].
          apply Hold in Hd. lia.
        - intros Hd. apply Hext. rewrite lookup_assign_group.
          by rewrite decide_True. }
      intros j t0 Hj. destruct j as [|j].
      * injection Hj as <-. rewrite Z.add_0_r, HG. done.
      * replace (sid + Z.of_nat (S j)) with (sid + 1 + Z.of_nat j) by lia.
        by apply Hgrp.
Qed.

(** An attempt ends, and ends in one of two ways: it returns an assignment
    or raises a [ValueError] without a cause. *)
Lemma build_super_districts_outcome district_adj targets :
  ∀ super_id unused district_to_super w,
    match (build_super_districts district_adj targets super_id unused
             district_to_super w).1 with
    | Ok _ => True
    | Raise e => ∃ msg, e = ValueError msg None
    | OutOfFuel => False
    end.
Proof.
  induction targets as [|t rest IH]; intros sid U d2s w;
    cbn [build_super_districts]; [done|].
  case_decide as Hne; [simpl; eauto|].
  unfold mbind at 1, M_bind at 1.
  destruct (random_choice (set_iter U) w) as [[s|e|] w1] eqn:Hch.
  - apply random_choice_Ok_inv in Hch as [Hs%elem_of_set_iter _].
    unfold set_remove. rewrite decide_True by done.
    unfold mbind at 1, M_bind at 1. cbn [mret M_ret].
    unfold mbind at 1, M_bind at 1.
    pose proof (grow_outcome district_adj sid t (S (size (U ∖ {[s]})))
                  {[s]} (U ∖ {[s]}) w1 ltac:(lia)) as Hg.
    destruct (grow _ _ _ _ _ _ w1) as [[[G U1]|e|] w2]; simpl in Hg.
    + destruct (is_connected G district_adj); [|simpl; eauto].
      destruct (can_satisfy_remaining U1 district_adj rest);
        [|simpl; eauto].
      apply IH.
    + simpl. eauto.
    + done.
  - exfalso. unfold random_choice in Hch.
    destruct (set_iter U) as [|y l] eqn:Hel.
    + apply set_iter_nil_inv in Hel. done.
    + by destruct (rchoice (gen w) (y :: l)).
  - exfalso. unfold random_choice in Hch.
    destruct (set_iter U) as [|y l]; [done|].
    by destruct (rchoice (gen w) (y :: l)).
Qed.

Lemma try_gluing_outcome district_adj target_sizes num_districts seed w :
  match (_try_gluing district_adj target_sizes num_districts seed w).1 with
  | Ok _ => True
  | Raise e => ∃ msg, e = ValueError msg None
  | OutOfFuel => False
  end.
Proof.
  unfold _try_gluing, mbind, M_bind, random_seed.
  apply build_super_districts_outcome.
Qed.

(** ** The generator and the log of [random.seed] calls *)

Lemma grow_log_indep district_adj super_id target_size fuel :
  ∀ current_group unused,
    log_indep (grow fuel district_adj super_id target_size current_group
                 unused).
Proof.
  induction fuel as [|fuel IH]; intros G U; simpl; case_decide.
  - apply log_indep_out_of_fuel.
  - apply log_indep_ret.
  - case_decide; [apply log_indep_raise|].
    apply log_indep_bind; [apply log_indep_random_choice|]. intros nd.
    apply log_indep_bind; [apply log_indep_set_remove|]. intros U'.
    apply IH.
  - apply log_indep_ret.
Qed.

Lemma grow_logs district_adj super_id target_size fuel :
  ∀ current_group unused,
    logs (grow fuel district_adj super_id target_size current_group unused)
      [].
Proof.
  induction fuel as [|fuel IH]; intros G U; simpl; case_decide.
  - apply logs_out_of_fuel.
  - apply logs_ret.
  - case_decide; [apply logs_raise|].
    apply logs_bind_nil; [apply logs_random_choice|]. intros nd.
    apply logs_bind_nil; [apply logs_set_remove|]. intros U'.
    apply IH.
  - apply logs_ret.
Qed.

Lemma build_super_districts_log_indep district_adj targets :
  ∀ super_id unused district_to_super,
    log_indep (build_super_districts district_adj targets super_id unused
                 district_to_super).
Proof.
  induction targets as [|t rest IH]; intros sid U d2s;
    cbn [build_super_districts]; [apply log_indep_ret|].
  case_decide; [apply log_indep_raise|].
  apply log_indep_bind; [apply log_indep_random_choice|]. intros s.
  apply log_indep_bind; [apply log_indep_set_remove|]. intros U0.
  apply log_indep_bind; [apply grow_log_indep|]. intros [G U1].
  destruct (negb _); [apply log_indep_raise|].
  destruct (negb _); [apply log_indep_raise|].
  apply IH.
Qed.

Lemma build_super_districts_logs district_adj targets :
  ∀ super_id unused district_to_super,
    logs (build_super_districts district_adj targets super_id unused
            district_to_super) [].
Proof.
  induction targets as [|t rest IH]; intros sid U d2s;
    cbn [build_super_districts]; [apply logs_ret|].
  case_decide; [apply logs_raise|].
  apply logs_bind_nil; [apply logs_random_choice|]. intros s.
  apply logs_bind_nil; [apply logs_set_remove|]. intros U0.
  apply logs_bind_nil; [apply grow_logs|]. intros [G U1].
  destruct (negb _); [apply logs_raise|].
  destruct (negb _); [apply logs_raise|].
  apply IH.
Qed.

(** An attempt reseeds the generator first, so nothing of the world it is
    started in reaches its result. *)
Lemma try_gluing_world_indep district_adj target_sizes num_districts seed
    w w' :
  (_try_gluing district_adj target_sizes num_districts seed w).1 =
  (_try_gluing district_adj target_sizes num_districts seed w').1 ∧
  gen (_try_gluing district_adj target_sizes num_districts seed w).2 =
  gen (_try_gluing district_adj target_sizes num_districts seed w').2.
Proof.
  unfold _try_gluing, mbind, M_bind, random_seed.
  by apply build_super_districts_log_indep.
Qed.

Lemma try_gluing_logs district_adj target_sizes num_districts seed :
  logs (_try_gluing district_adj target_sizes num_districts seed) [seed].
Proof.
  intros w. unfold _try_gluing, mbind, M_bind, random_seed.
  by rewrite build_super_districts_logs, app_nil_r.
Qed.

(** ** What a successful attempt has built *)

Lemma elem_of_all_districts num_districts d :
  d ∈ all_districts num_districts ↔ 0 ≤ d < num_districts.
Proof.
  unfold all_districts. rewrite elem_of_list_to_set, elem_of_seqZ. lia.
Qed.

Lemma len_all_districts num_districts :
  len (all_districts num_districts) = Z.max 0 num_districts.
Proof.
  unfold len, all_districts.
  rewrite size_list_to_set by apply NoDup_seqZ.
  rewrite length_seqZ. lia.
Qed.

Lemma py_sum_max_1 (l : list Z) :
  py_sum l ≤ py_sum (Z.max 1 <$> l) ∧
  Z.of_nat (length l) ≤ py_sum (Z.max 1 <$> l) ∧
  (py_sum (Z.max 1 <$> l) = py_sum l → Forall (λ t, 1 ≤ t) l).
Proof.
  induction l as [|t l (IH1 & IH2 & IH3)]; [by repeat split|].
  rewrite fmap_cons, !py_sum_cons. cbn [length].
  revert IH1 IH2 IH3.
  generalize (py_sum (Z.max 1 <$> l)) (py_sum l). intros a b IH1 IH2 IH3.
  split; [lia|]. split; [lia|].
  intros Heq. constructor; [lia|]. apply IH3. lia.
Qed.

Lemma py_sum_max_1_pos (l : list Z) :
  Forall (λ t, 1 ≤ t) l → py_sum (Z.max 1 <$> l) = py_sum l.
Proof.
  induction 1 as [|t l Ht _ IH]; [done|].
  rewrite fmap_cons, !py_sum_cons, IH. lia.
Qed.

Lemma try_gluing_Ok_inv district_adj target_sizes num_districts seed w
    result w' :
  _try_gluing district_adj target_sizes num_districts seed w
    = (Ok result, w') →
  dom result ⊆ all_districts num_districts ∧
  (target_sizes ≠ [] →
     dom result = all_districts num_districts ∧
     Z.max 0 num_districts = py_sum (Z.max 1 <$> target_sizes)) ∧
  (∀ d i, result !! d = Some i →
     0 ≤ i < Z.of_nat (length target_sizes)) ∧
  (∀ (j : nat) t, target_sizes !! j = Some t →
     len (group_of result (Z.of_nat j)) = Z.max 1 t ∧
     is_connected (group_of result (Z.of_nat j)) district_adj = true).
Proof.
  unfold _try_gluing. intros Hrun.
  apply bind_Ok_inv in Hrun as (_ & w1 & _ & Hrun).
  apply build_super_districts_Ok_inv in Hrun
    as (_ & Hsub & Hall & Hsize & Hval & Hgrp);
    [|rewrite dom_empty_L; set_solver | by intros d i; rewrite lookup_empty].
  rewrite dom_empty_L in Hsub, Hall.
  repeat split.
  - set_solver.
  - rewrite Hall by done. set_solver.
  - rewrite <- Hsize by done. by rewrite len_all_districts.
  - apply Hval in H as [H|H]; [by rewrite lookup_empty in H | lia].
  - apply Hval in H as [H|H]; [by rewrite lookup_empty in H | lia].
  - by apply (Hgrp j t).
  - by apply (Hgrp j t).
Qed.

(** ** The retry loop *)

Lemma attempt_loop_Ok_inv district_adj target_sizes num_districts seed
    attempts :
  ∀ w result w',
    attempt_loop attempts district_adj target_sizes num_districts seed w
      = (Ok (Some result), w') →
    ∃ attempt w1 w2,
      attempt ∈ attempts ∧
      _try_gluing district_adj target_sizes num_districts (seed + attempt) w1
        = (Ok result, w2).
Proof.
  induction attempts as [|a l IH]; intros w m w' Hrun; [done|].
  cbn [attempt_loop] in Hrun.
  destruct (_try_gluing _ _ _ (seed + a) w) as [[m1|e|] w1] eqn:Htry.
  - injection Hrun as <- <-. exists a, w, w1. split; [left | done].
  - destruct e; try done. case_decide; [|done].
    apply IH in Hrun as (a' & w2 & w3 & Hin & Hrun).
    exists a', w2, w3. split; [by right | done].
  - done.
Qed.

Lemma attempt_loop_log_indep district_adj target_sizes num_districts seed
    attempts :
  log_indep
    (attempt_loop attempts district_adj target_sizes num_districts seed).
Proof.
  induction attempts as [|a l IH]; [apply log_indep_ret|].
  intros w w' Hg. cbn [attempt_loop].
  destruct (try_gluing_world_indep district_adj target_sizes num_districts
              (seed + a) w w') as [Ho Hgen].
  destruct (_try_gluing _ _ _ (seed + a) w) as [o w1],
    (_try_gluing _ _ _ (seed + a) w') as [o' w1'].
  simpl in Ho, Hgen. subst o'.
  destruct o as [m|e|]; [done | | done].
  destruct e; try done. case_decide; [by apply IH | done].
Qed.

(** The attempt with index [a] aborts. *)
Definition attempt_aborts (district_adj : gmap Z (gset Z))
    (target_sizes : list Z) (num_districts seed a : Z) (e : exn) : Prop :=
  ∀ w, (_try_gluing district_adj target_sizes num_districts (seed + a) w).1
       = Raise e.

Lemma attempt_loop_exhausts district_adj target_sizes num_districts seed :
  ∀ (n : nat) k w,
    k + Z.of_nat n = max_attempts → (0 < n)%nat →
    (∀ a, k ≤ a < max_attempts →
       ∃ e, attempt_aborts district_adj target_sizes num_districts seed a e) →
    ∃ reason,
      attempt_aborts district_adj target_sizes num_districts seed
        (max_attempts - 1) reason ∧
      (attempt_loop (seqZ k (Z.of_nat n)) district_adj target_sizes
         num_districts seed w).1
        = Raise (ValueError (NoValidGrouping max_attempts) (Some reason)) ∧
      seed_calls
        (attempt_loop (seqZ k (Z.of_nat n)) district_adj target_sizes
           num_districts seed w).2
        = seed_calls w ++ ((λ a, seed + a) <$> seqZ k (Z.of_nat n)).
Proof.
  induction n as [|n IH]; intros k w Hk Hn Hall; [lia|].
  rewrite seqZ_cons by lia.
  replace (Z.pred (Z.of_nat (S n))) with (Z.of_nat n) by lia.
  cbn [attempt_loop fmap list_fmap].
  destruct (Hall k ltac:(lia)) as [e He].
  pose proof (He w) as Hw.
  pose proof (try_gluing_outcome district_adj target_sizes num_districts
                (seed + k) w) as Hout.
  pose proof (try_gluing_logs district_adj target_sizes num_districts
                (seed + k) w) as Hlog.
  destruct (_try_gluing _ _ _ (seed + k) w) as [o w1].
  simpl in Hw, Hout, Hlog. subst o. destruct Hout as [msg ->].
  case_decide as Hlast.
  - assert (0 < n)%nat as Hn' by (unfold max_attempts in *; lia).
    assert (Z.succ k + Z.of_nat n = max_attempts) as Hk' by lia.
    destruct (IH (Z.succ k) w1 Hk' Hn') as (reason & Hr & Ho & Hl).
    { intros a Ha. apply Hall. lia. }
    exists reason. split; [done|]. split; [done|].
    rewrite Hl, Hlog, <- app_assoc. done.
  - assert (n = 0%nat) as -> by lia.
    assert (k = max_attempts - 1) as -> by lia.
    exists (ValueError msg None). split; [done|]. split; [done|].
    simpl. by rewrite Hlog.
Qed.

(** If every attempt aborts, the engine makes all of them and fails with
    the last reason as the cause. *)
Lemma glue_exhausts district_adj target_sizes num_districts seed w :
  (∀ a, 0 ≤ a < max_attempts →
     ∃ e, attempt_aborts district_adj target_sizes num_districts seed a e) →
  ∃ reason,
    attempt_aborts district_adj target_sizes num_districts seed
      (max_attempts - 1) reason ∧
    (glue_districts_greedy district_adj target_sizes num_districts seed w).1
      = Raise (ValueError (NoValidGrouping max_attempts) (Some reason)) ∧
    seed_calls
      (glue_districts_greedy district_adj target_sizes num_districts seed w).2
      = seed_calls w ++ seed :: ((λ a, seed + a) <$> seqZ 0 max_attempts).
Proof.
  intros Hall. unfold glue_districts_greedy, mbind, M_bind, random_seed.
  destruct (attempt_loop_exhausts district_adj target_sizes num_districts
              seed (Z.to_nat max_attempts) 0
              (World (rseed seed) (seed_calls w ++ [seed])))
    as (reason & Hr & Ho & Hl);
    [reflexivity | unfold max_attempts; lia | exact Hall |].
  change (Z.of_nat (Z.to_nat max_attempts)) with max_attempts in Ho, Hl.
  exists reason. split; [done|]. split; [done|].
  rewrite Hl. simpl. by rewrite <- app_assoc.
Qed.

End GluingFacts.

(** ** Contiguity *)

Section Contiguity.
Context {Ord : SetOrder}.
Implicit Types (district_adj : gmap Z (gset Z)) (districts : gset Z).

(** The inner [for] of the search only adds neighbours of [current] that
    are members of [districts], and leaves the queue inside [visited]. *)
Lemma foldl_visit_inv districts (P : Z → Prop) l :
  ∀ st,
    (∀ x, x ∈ l → x ∈ districts → P x) →
    (∀ x, x ∈ st.1 → P x) →
    (∀ x, x ∈ st.2 → x ∈ st.1) →
    (∀ x, x ∈ (foldl (visit districts) st l).1 → P x) ∧
    (∀ x, x ∈ (foldl (visit districts) st l).2 →
          x ∈ (foldl (visit districts) st l).1).
Proof.
  induction l as [|n l IH]; intros [V Q] Hl HV HQ; [done|].
  cbn [foldl]. apply IH.
  - intros x Hx. apply Hl. by right.
  - unfold visit. case_decide as Hn; simpl; [|done].
    intros x [Hx|Hx]%elem_of_union; [by apply HV|].
    apply elem_of_singleton in Hx as ->.
    apply Hl; [by left | by destruct Hn].
  - unfold visit. case_decide as Hn; simpl in *; [|done].
    intros x [Hx|Hx]%elem_of_app.
    + apply elem_of_union. left. by apply HQ.
    + apply list_elem_of_singleton in Hx as ->.
      apply elem_of_union. right. by apply elem_of_singleton.
Qed.

(** What the search has visited was reached from the start. *)
Lemma bfs_sound district_adj districts start fuel :
  ∀ visited queue visited',
    bfs fuel district_adj districts visited queue = Some visited' →
    (∀ x, x ∈ visited →
          x ∈ districts ∧ reachable_in district_adj districts start x) →
    (∀ x, x ∈ queue → x ∈ visited) →
    ∀ x, x ∈ visited' →
         x ∈ districts ∧ reachable_in district_adj districts start x.
Proof.
  induction fuel as [|fuel IH]; intros V Q V' Hrun HV HQ.
  - destruct Q as [|c Q]; [|done]. by injection Hrun as <-.
  - destruct Q as [|c Q]; [by injection Hrun as <-|].
    cbn [bfs] in Hrun.
    assert (c ∈ V) as Hc by (apply HQ; by left).
    destruct (HV c Hc) as [HcS Hreach].
    destruct (foldl_visit_inv districts
                (λ x, x ∈ districts ∧
                      reachable_in district_adj districts start x)
                (set_iter (adj_get district_adj c)) (V, Q)) as [HV' HQ'].
    + intros x Hx HxS. split; [done|].
      eapply rtc_r; [exact Hreach|].
      split; [done|]. split; [done|]. by apply elem_of_set_iter.
    + done.
    + intros x Hx. apply HQ. by right.
    + by apply (IH _ _ _ Hrun).
Qed.

(** If [is_connected] answers [True], every member of the set is reached
    from the member the search started at, along edges inside the set. *)
Lemma is_connected_reachable districts district_adj :
  is_connected districts district_adj = true →
  ∀ start rest, set_iter districts = start :: rest →
    ∀ d, d ∈ districts → reachable_in district_adj districts start d.
Proof.
  unfold is_connected. intros Hconn start rest Hiter.
  rewrite Hiter in Hconn.
  assert (start ∈ districts) as Hstart.
  { apply elem_of_set_iter. rewrite Hiter. by left. }
  destruct (bfs _ _ _ _ _) as [visited|] eqn:Hbfs; [|done].
  apply bool_decide_eq_true in Hconn.
  pose proof (bfs_sound district_adj districts start _ _ _ _ Hbfs) as Hs.
  assert (∀ x, x ∈ visited →
    x ∈ districts ∧ reachable_in district_adj districts start x) as Hvis.
  { apply Hs.
    - intros x Hx. apply elem_of_singleton in Hx as ->.
      split; [done|]. apply rtc_refl.
    - intros x Hx. apply list_elem_of_singleton in Hx as ->.
      by apply elem_of_singleton. }
  assert (visited = districts) as Heq.
  { apply set_subseteq_size_eq.
    - intros x Hx. by apply Hvis.
    - unfold len in Hconn. lia. }
  intros d Hd. apply Hvis. by rewrite Heq.
Qed.

(** Under a symmetric adjacency reachability inside a set goes both
    ways. *)
Lemma reachable_in_sym district_adj districts u v :
  symmetric_in district_adj districts →
  reachable_in district_adj districts u v →
  reachable_in district_adj districts v u.
Proof.
  intros Hsym. induction 1 as [|x y z Hxy _ IH]; [apply rtc_refl|].
  eapply rtc_r; [exact IH|]. by apply Hsym.
Qed.

(** A set that passes [is_connected] is connected: it has a member from
    which all are reached, and under a symmetric adjacency any two members
    are joined by a path inside the set. *)
Lemma is_connected_connected districts district_adj :
  is_connected districts district_adj = true →
  districts ≠ ∅ →
  (∃ root, root ∈ districts ∧
     ∀ d, d ∈ districts → reachable_in district_adj districts root d) ∧
  (symmetric_in district_adj districts →
     ∀ u v, u ∈ districts → v ∈ districts →
       reachable_in district_adj districts u v).
Proof.
  intros Hconn Hne.
  destruct (set_iter districts) as [|start rest] eqn:Hiter.
  { by apply set_iter_nil_inv in Hiter. }
  pose proof (is_connected_reachable _ _ Hconn start rest Hiter) as Hreach.
  assert (start ∈ districts) as Hstart.
  { apply elem_of_set_iter. rewrite Hiter. by left. }
  split; [by exists start|].
  intros Hsym u v Hu Hv.
  etrans; [|by apply Hreach].
  apply reachable_in_sym; [done | by apply Hreach].
Qed.

End Contiguity.

(** ** Concrete inputs *)

Definition w0 : @world lcg := @World lcg 0 [].

(** Four districts in a chain 0 - 1 - 2 - 3. *)
Definition chain4 : gmap Z (gset Z) :=
  {[ 0 := {[1]}; 1 := {[0; 2]}; 2 := {[1; 3]}; 3 := {[2]} ]}.

(** Three districts in a chain 0 - 1 - 2. *)
Definition chain3 : gmap Z (gset Z) :=
  {[ 0 := {[1]}; 1 := {[0; 2]}; 2 := {[1]} ]}.

(** ** The gluing engine: results *)

Section GluingTheorems.
Context {R : RandomSource} {Ord : SetOrder}.

(** C1.  A successful result of [glue_districts_greedy] or of [_try_gluing],
    for target sizes that sum to [num_districts]: the district ids that are
    assigned are exactly those of [0, num_districts), each to one
    super-district id, which is a position of [target_sizes]; and the group
    of districts sent to position [i] has exactly [target_sizes[i]] members,
    passes [is_connected] under the adjacency given, and is connected in
    it: some member reaches every member along edges inside the group, and
    when the adjacency is symmetric any two members are joined by such a
    path. *)
Theorem gluing_result_invariant (district_adj : gmap Z (gset Z))
    (target_sizes : list Z) (num_districts seed : Z) (w : world)
    (result : gmap Z Z) (w' : world) :
  glue_districts_greedy district_adj target_sizes num_districts seed w
    = (Ok (Some result), w') ∨
  _try_gluing district_adj target_sizes num_districts seed w
    = (Ok result, w') →
  py_sum target_sizes = num_districts →
  (∀ d, 0 ≤ d < num_districts ↔ ∃ i, result !! d = Some i) ∧
  (∀ d i, result !! d = Some i →
     0 ≤ i < Z.of_nat (length target_sizes) ∧
     ∀ i', d ∈ group_of result i' → i' = i) ∧
  (∀ (i : nat) t, target_sizes !! i = Some t →
     len (group_of result (Z.of_nat i)) = t ∧
     is_connected (group_of result (Z.of_nat i)) district_adj = true ∧
     (∃ root, root ∈ group_of result (Z.of_nat i) ∧
        ∀ d, d ∈ group_of result (Z.of_nat i) →
          reachable_in district_adj (group_of result (Z.of_nat i)) root d) ∧
     (symmetric_in district_adj (group_of result (Z.of_nat i)) →
        ∀ u v, u ∈ group_of result (Z.of_nat i) →
               v ∈ group_of result (Z.of_nat i) →
          reachable_in district_adj (group_of result (Z.of_nat i)) u v)).
Proof.
  intros Hrun Hsum.
  assert (∃ s w1 w2,
    _try_gluing district_adj target_sizes num_districts s w1
      = (Ok result, w2)) as (s & w1 & w2 & Htry).
  { destruct Hrun as [Hrun|Hrun]; [|eauto].
    unfold glue_districts_greedy in Hrun.
    apply bind_Ok_inv in Hrun as (_ & w1 & _ & Hrun).
    apply attempt_loop_Ok_inv in Hrun as (a & w2 & w3 & _ & Hrun). eauto. }
  apply try_gluing_Ok_inv in Htry as (Hsub & Hall & Hval & Hgrp).
  assert (∀ d i, result !! d = Some i → ∀ i', d ∈ group_of result i' → i' = i)
    as Huniq.
  { intros d i Hd i' Hi'%elem_of_group_of. congruence. }
  destruct (decide (target_sizes = [])) as [->|Hne].
  - simpl in Hsum. subst num_districts.
    split; [|split].
    + intros d. split; [lia|]. intros [i Hi].
      assert (d ∈ dom result) as Hd by (apply elem_of_dom; eauto).
      apply Hsub, elem_of_all_districts in Hd. lia.
    + intros d i Hd. split; [by apply (Hval d)|by apply Huniq].
    + intros i t Hi. done.
  - destruct (Hall Hne) as [Hdom Hmax].
    destruct (py_sum_max_1 target_sizes) as (Hle & Hlen & Hpos).
    assert (0 < length target_sizes)%nat
      by (destruct target_sizes; [done | simpl; lia]).
    assert (Forall (λ t, 1 ≤ t) target_sizes) as Hall1.
    { apply Hpos. revert Hmax Hle Hlen Hsum.
      generalize (py_sum (Z.max 1 <$> target_sizes)) (py_sum target_sizes).
      intros a b. lia. }
    split; [|split].
    + intros d. rewrite <- elem_of_all_districts, <- Hdom, elem_of_dom. done.
    + intros d i Hd. split; [by apply (Hval d)|by apply Huniq].
    + intros i t Hi. destruct (Hgrp i t Hi) as [Hl Hc].
      apply list_elem_of_lookup_2 in Hi.
      rewrite Forall_forall in Hall1. specialize (Hall1 t Hi).
      assert (len (group_of result (Z.of_nat i)) = t) as Hsize by lia.
      split; [done|]. split; [done|].
      apply is_connected_connected; [done|].
      intros Hempty. rewrite Hempty in Hsize. unfold len in Hsize.
      rewrite size_empty in Hsize. lia.
Qed.

(** C5.  The result of [glue_districts_greedy] is a function of its four
    arguments: whatever state the generator and the log are in when the
    call is made, the same arguments give the same result and leave the
    generator in the same state. *)
Theorem glue_deterministic (district_adj : gmap Z (gset Z))
    (target_sizes : list Z) (num_districts seed : Z) (w1 w2 : world) :
  (glue_districts_greedy district_adj target_sizes num_districts seed w1).1 =
  (glue_districts_greedy district_adj target_sizes num_districts seed w2).1 ∧
  gen (glue_districts_greedy district_adj target_sizes num_districts seed
         w1).2 =
  gen (glue_districts_greedy district_adj target_sizes num_districts seed
         w2).2.
Proof.
  unfold glue_districts_greedy, mbind, M_bind, random_seed.
  by apply attempt_loop_log_indep.
Qed.

(** C8.  When every attempt aborts, [glue_districts_greedy] makes exactly
    [max_attempts = 100] attempts, the attempt with index [a] seeding the
    generator with [seed + a], and then raises the one error of the engine,
    "could not find valid grouping", whose cause is the error of the last
    attempt. *)
Theorem glue_retry_exhaustion (district_adj : gmap Z (gset Z))
    (target_sizes : list Z) (num_districts seed : Z) (w : world) :
  (∀ a, 0 ≤ a < max_attempts →
     ∃ e, attempt_aborts district_adj target_sizes num_districts seed a e) →
  max_attempts = 100 ∧
  ∃ reason,
    attempt_aborts district_adj target_sizes num_districts seed
      (max_attempts - 1) reason ∧
    (glue_districts_greedy district_adj target_sizes num_districts seed w).1
      = Raise (ValueError (NoValidGrouping max_attempts) (Some reason)) ∧
    seed_calls
      (glue_districts_greedy district_adj target_sizes num_districts seed w).2
      = seed_calls w ++ seed :: ((λ a, seed + a) <$> seqZ 0 max_attempts).
Proof. intros Hall. split; [done | by apply glue_exhausts]. Qed.

(** C2, as the script has it.  There is no check of the configuration:
    when [target_sizes] is not empty, has only positive entries and does not
    sum to [num_districts], all [max_attempts] attempts are made, each
    aborts, and the call raises the engine's "could not find valid grouping"
    error, whose cause is the error with which the last attempt, the one
    seeded with [seed + 99], aborted. *)
Theorem glue_sum_mismatch (district_adj : gmap Z (gset Z))
    (target_sizes : list Z) (num_districts seed : Z) (w : world) :
  target_sizes ≠ [] →
  Forall (λ t, 1 ≤ t) target_sizes →
  py_sum target_sizes ≠ num_districts →
  (∀ a w1, ∃ msg,
     (_try_gluing district_adj target_sizes num_districts (seed + a) w1).1
       = Raise (ValueError msg None)) ∧
  ∃ reason,
    attempt_aborts district_adj target_sizes num_districts seed
      (max_attempts - 1) reason ∧
    (glue_districts_greedy district_adj target_sizes num_districts seed w).1
      = Raise (ValueError (NoValidGrouping max_attempts) (Some reason)) ∧
    seed_calls
      (glue_districts_greedy district_adj target_sizes num_districts seed w).2
      = seed_calls w ++ seed :: ((λ a, seed + a) <$> seqZ 0 max_attempts).
Proof.
  intros Hne Hpos Hsum.
  assert (∀ a w1, ∃ msg,
     (_try_gluing district_adj target_sizes num_districts (seed + a) w1).1
       = Raise (ValueError msg None)) as Habort.
  { intros a w1.
    pose proof (try_gluing_outcome district_adj target_sizes num_districts
                  (seed + a) w1) as Hout.
    destruct (_try_gluing _ _ _ (seed + a) w1) as [[m|e|] w2] eqn:Htry;
      simpl in *; [exfalso | destruct Hout as [msg ->]; eauto | done].
    apply try_gluing_Ok_inv in Htry as (_ & Hall & _).
    destruct (Hall Hne) as [_ Hmax].
    rewrite py_sum_max_1_pos in Hmax by done.
    destruct (py_sum_max_1 target_sizes) as (_ & Hlen & _).
    rewrite py_sum_max_1_pos in Hlen by done.
    assert (0 < length target_sizes)%nat
      by (destruct target_sizes; [done | simpl; lia]).
    revert Hmax Hlen Hsum. generalize (py_sum target_sizes). intros b. lia. }
  split; [done|].
  destruct (glue_exhausts district_adj target_sizes num_districts seed w)
    as (reason & Hr & Ho & Hl); [|eauto].
  intros a _. destruct (Habort a w) as [msg Hmsg].
  exists (ValueError msg None). intros w1.
  destruct (try_gluing_world_indep district_adj target_sizes num_districts
              (seed + a) w1 w) as [-> _]. done.
Qed.

End GluingTheorems.

(** ** The gluing engine on concrete inputs *)

(** Running every attempt in one world is enough to know that all abort. *)
Lemma all_attempts_abort_check {R : RandomSource} {Ord : SetOrder}
    (district_adj : gmap Z (gset Z)) (target_sizes : list Z)
    (num_districts seed : Z) (w : world) :
  forallb
    (λ a, match (_try_gluing district_adj target_sizes num_districts
                   (seed + a) w).1 with
          | Raise _ => true
          | _ => false
          end)
    (seqZ 0 max_attempts) = true →
  ∀ a, 0 ≤ a < max_attempts →
    ∃ e, attempt_aborts district_adj target_sizes num_districts seed a e.
Proof.
  intros Hall a Ha. rewrite forallb_forall in Hall.
  specialize (Hall a). rewrite <- list_elem_of_In, elem_of_seqZ in Hall.
  specialize (Hall ltac:(lia)).
  destruct (_try_gluing _ _ _ (seed + a) w).1 as [m|e|] eqn:He; try done.
  exists e. intros w1.
  destruct (try_gluing_world_indep district_adj target_sizes num_districts
              (seed + a) w1 w) as [-> _]. done.
Qed.

Definition glued_chain4 : gmap Z Z := {[ 0 := 1; 1 := 1; 2 := 0; 3 := 0 ]}.

Lemma gluing_result_invariant_witness :
  glue_districts_greedy (Ord := ascending) chain4 [2; 2] 4 42 w0
    = (Ok (Some glued_chain4),
       (glue_districts_greedy (Ord := ascending) chain4 [2; 2] 4 42 w0).2) ∧
  py_sum [2; 2] = 4 ∧
  (∀ d, 0 ≤ d < 4 ↔ ∃ i, glued_chain4 !! d = Some i) ∧
  (∀ d i, glued_chain4 !! d = Some i →
     0 ≤ i < Z.of_nat (length [2; 2]) ∧
     ∀ i', d ∈ group_of glued_chain4 i' → i' = i) ∧
  (∀ (i : nat) t, [2; 2] !! i = Some t →
     len (group_of glued_chain4 (Z.of_nat i)) = t ∧
     is_connected (Ord := ascending) (group_of glued_chain4 (Z.of_nat i))
       chain4 = true ∧
     (∃ root, root ∈ group_of glued_chain4 (Z.of_nat i) ∧
        ∀ d, d ∈ group_of glued_chain4 (Z.of_nat i) →
          reachable_in chain4 (group_of glued_chain4 (Z.of_nat i)) root d) ∧
     (symmetric_in chain4 (group_of glued_chain4 (Z.of_nat i)) →
        ∀ u v, u ∈ group_of glued_chain4 (Z.of_nat i) →
               v ∈ group_of glued_chain4 (Z.of_nat i) →
          reachable_in chain4 (group_of glued_chain4 (Z.of_nat i)) u v)).
Proof.
  assert ((glue_districts_greedy (Ord := ascending) chain4 [2; 2] 4 42 w0).1
    = Ok (Some glued_chain4)) as Hres by (vm_compute; reflexivity).
  assert (glue_districts_greedy (Ord := ascending) chain4 [2; 2] 4 42 w0
    = (Ok (Some glued_chain4),
       (glue_districts_greedy (Ord := ascending) chain4 [2; 2] 4 42 w0).2)) as Hrun
    by (rewrite <- Hres; apply surjective_pairing).
  split; [exact Hrun|]. split; [reflexivity|].
  exact (gluing_result_invariant (Ord := ascending) chain4 [2; 2] 4 42 w0 glued_chain4 _
           (or_introl Hrun) eq_refl).
Defined.

Lemma glue_retry_exhaustion_witness :
  (∀ a, 0 ≤ a < max_attempts →
     ∃ e, attempt_aborts (R := lcg) (Ord := ascending) ∅ [2; 2] 4 42 a e) ∧
  max_attempts = 100 ∧
  ∃ reason,
    attempt_aborts (R := lcg) (Ord := ascending) ∅ [2; 2] 4 42 (max_attempts - 1) reason ∧
    (glue_districts_greedy (Ord := ascending) ∅ [2; 2] 4 42 w0).1
      = Raise (ValueError (NoValidGrouping max_attempts) (Some reason)) ∧
    seed_calls (glue_districts_greedy (Ord := ascending) ∅ [2; 2] 4 42 w0).2
      = seed_calls w0 ++ 42 :: ((λ a, 42 + a) <$> seqZ 0 max_attempts).
Proof.
  assert (∀ a, 0 ≤ a < max_attempts →
     ∃ e, attempt_aborts (R := lcg) (Ord := ascending) ∅ [2; 2] 4 42 a e) as Hall
    by (apply (all_attempts_abort_check (R := lcg) (Ord := ascending) ∅ [2; 2] 4 42 w0);
        vm_compute; reflexivity).
  split; [exact Hall|].
  exact (glue_retry_exhaustion (Ord := ascending) ∅ [2; 2] 4 42 w0 Hall).
Defined.

(** C2, the claim as stated, fails.  On the scenario of the specification,
    target sizes [3; 1] for 3 districts, nothing is rejected up front: the
    generator is reseeded for each of the 100 attempts, and the error that
    comes out is the one of an exhausted retry loop, caused by the
    feasibility check of the last attempt.  With no target at all the
    mismatch is not an error: the empty assignment is returned. *)
Lemma glue_sum_mismatch_counterexample :
  py_sum [3; 1] ≠ 3 ∧
  (glue_districts_greedy (Ord := ascending) chain3 [3; 1] 3 42 w0).1
    = Raise (ValueError (NoValidGrouping 100)
               (Some (ValueError CannotSatisfyRemaining None))) ∧
  seed_calls (glue_districts_greedy (Ord := ascending) chain3 [3; 1] 3 42 w0).2
    = 42 :: ((λ a, 42 + a) <$> seqZ 0 100) ∧
  py_sum [] ≠ 3 ∧
  (glue_districts_greedy (Ord := ascending) chain3 [] 3 42 w0).1 = Ok (Some ∅).
Proof. repeat split; try done; vm_compute; reflexivity. Qed.

Lemma glue_sum_mismatch_witness :
  [3; 1] ≠ [] ∧ Forall (λ t, 1 ≤ t) [3; 1] ∧ py_sum [3; 1] ≠ 3 ∧
  (∀ a (w1 : @world lcg), ∃ msg,
     (_try_gluing (Ord := ascending) chain3 [3; 1] 3 (42 + a) w1).1
       = Raise (ValueError msg None)) ∧
  ∃ reason,
    attempt_aborts (R := lcg) (Ord := ascending) chain3 [3; 1] 3 42
      (max_attempts - 1) reason ∧
    (glue_districts_greedy (Ord := ascending) chain3 [3; 1] 3 42 w0).1
      = Raise (ValueError (NoValidGrouping max_attempts) (Some reason)) ∧
    seed_calls (glue_districts_greedy (Ord := ascending) chain3 [3; 1] 3 42 w0).2
      = seed_calls w0 ++ 42 :: ((λ a, 42 + a) <$> seqZ 0 max_attempts).
Proof.
  assert ([3; 1] ≠ []) as H1 by discriminate.
  assert (Forall (λ t, 1 ≤ t) [3; 1]) as H2 by (repeat constructor; lia).
  assert (py_sum [3; 1] ≠ 3) as H3 by (vm_compute; discriminate).
  split; [exact H1|]. split; [exact H2|]. split; [exact H3|].
  exact (glue_sum_mismatch (R := lcg) (Ord := ascending) chain3 [3; 1] 3 42 w0 H1 H2 H3).
Defined.


(** ** The gluing engine: further results *)

Section GluingMore.
Context {R : RandomSource} {Ord : SetOrder}.

(** The attempt with index [a] returns [result]. *)
Definition attempt_returns (district_adj : gmap Z (gset Z))
    (target_sizes : list Z) (num_districts seed a : Z) (result : gmap Z Z)
    : Prop :=
  ∀ w, (_try_gluing district_adj target_sizes num_districts (seed + a) w).1
       = Ok result.

Lemma attempt_loop_spec district_adj target_sizes num_districts seed :
  ∀ (n : nat) k w,
    k + Z.of_nat n = max_attempts →
    match (attempt_loop (seqZ k (Z.of_nat n)) district_adj target_sizes
             num_districts seed w).1 with
    | Ok (Some result) =>
        ∃ a, k ≤ a < max_attempts ∧
          attempt_returns district_adj target_sizes num_districts seed a
            result ∧
          ∀ b, k ≤ b < a →
            ∃ msg, attempt_aborts district_adj target_sizes num_districts
                     seed b (ValueError msg None)
    | Ok None => n = 0%nat
    | Raise e =>
        ∃ msg,
          e = ValueError (NoValidGrouping max_attempts)
                (Some (ValueError msg None)) ∧
          attempt_aborts district_adj target_sizes num_districts seed
            (max_attempts - 1) (ValueError msg None) ∧
          ∀ b, k ≤ b < max_attempts →
            ∃ msg', attempt_aborts district_adj target_sizes num_districts
                      seed b (ValueError msg' None)
    | OutOfFuel => False
    end.
Proof.
  induction n as [|n IH]; intros k w Hk; [done|].
  rewrite seqZ_cons by lia.
  replace (Z.pred (Z.of_nat (S n))) with (Z.of_nat n) by lia.
  cbn [attempt_loop].
  pose proof (try_gluing_outcome district_adj target_sizes num_districts
                (seed + k) w) as Hout.
  assert (∀ o, (_try_gluing district_adj target_sizes num_districts
                  (seed + k) w).1 = o →
               ∀ w1, (_try_gluing district_adj target_sizes num_districts
                        (seed + k) w1).1 = o) as Hindep.
  { intros o <- w1.
    by destruct (try_gluing_world_indep district_adj target_sizes
                   num_districts (seed + k) w1 w) as [-> _]. }
  destruct (_try_gluing _ _ _ (seed + k) w) as [[m|e|] w1];
    simpl in Hout, Hindep; [| |done].
  - simpl. exists k. split; [unfold max_attempts in *; lia|].
    split; [intros ?; by apply Hindep|]. intros b Hb. lia.
  - destruct Hout as [msg ->]. case_decide as Hlast.
    + specialize (IH (Z.succ k) w1 ltac:(lia)).
      destruct (attempt_loop _ _ _ _ _ w1).1 as [[m|]|e|]; [| |  |done].
      * destruct IH as (a & Ha & Hret & Hprev).
        exists a. split; [lia|]. split; [done|].
        intros b Hb. destruct (decide (b = k)) as [->|Hne].
        -- exists msg. intros ?; by apply Hindep.
        -- apply Hprev. lia.
      * unfold max_attempts in *. lia.
      * destruct IH as (msg' & -> & Hl & Hall).
        exists msg'. split; [done|]. split; [done|].
        intros b Hb. destruct (decide (b = k)) as [->|Hne].
        -- exists msg. intros ?; by apply Hindep.
        -- apply Hall. lia.
    + simpl. exists msg. split; [done|].
      assert (k = max_attempts - 1) as Hkk by lia.
      split; [rewrite <- Hkk; intros ?; by apply Hindep|].
      intros b Hb. assert (b = k) as -> by lia.
      exists msg. intros ?; by apply Hindep.
Qed.

(** The engine has two ways to end.  It returns the assignment of the
    first attempt that succeeds, every attempt before it having aborted; or
    all [max_attempts] attempts abort and it raises "could not find valid
    grouping", caused by the error of the last attempt.  It never returns
    [None] by running off its loop, and raises no other error. *)
Theorem glue_first_success_or_exhaustion (district_adj : gmap Z (gset Z))
    (target_sizes : list Z) (num_districts seed : Z) (w : world) :
  match (glue_districts_greedy district_adj target_sizes num_districts
           seed w).1 with
  | Ok (Some result) =>
      ∃ a, 0 ≤ a < max_attempts ∧
        attempt_returns district_adj target_sizes num_districts seed a
          result ∧
        ∀ b, 0 ≤ b < a →
          ∃ msg, attempt_aborts district_adj target_sizes num_districts
                   seed b (ValueError msg None)
  | Ok None => False
  | Raise e =>
      ∃ msg,
        e = ValueError (NoValidGrouping max_attempts)
              (Some (ValueError msg None)) ∧
        attempt_aborts district_adj target_sizes num_districts seed
          (max_attempts - 1) (ValueError msg None) ∧
        ∀ b, 0 ≤ b < max_attempts →
          ∃ msg', attempt_aborts district_adj target_sizes num_districts
                    seed b (ValueError msg' None)
  | OutOfFuel => False
  end.
Proof.
  unfold glue_districts_greedy, mbind, M_bind, random_seed.
  pose proof (attempt_loop_spec district_adj target_sizes num_districts seed
                (Z.to_nat max_attempts) 0
                (World (rseed seed) (seed_calls w ++ [seed])) eq_refl) as H.
  change (Z.of_nat (Z.to_nat max_attempts)) with max_attempts in H.
  destruct (attempt_loop _ _ _ _ _ _).1 as [[m|]|e|]; [done| |done|done].
  unfold max_attempts in H. lia.
Qed.

(** A successful attempt, whatever the target sizes sum to: when there is
    at least one target, every district of [0, num_districts) is assigned,
    the group at position [i] has [max(1, target_sizes[i])] members, a
    target below one being filled by the seed district alone, and these
    group sizes sum to the number of districts. *)
Theorem try_gluing_success_covers (district_adj : gmap Z (gset Z))
    (target_sizes : list Z) (num_districts seed : Z) (w : world)
    (result : gmap Z Z) (w' : world) :
  _try_gluing district_adj target_sizes num_districts seed w
    = (Ok result, w') →
  target_sizes ≠ [] →
  (∀ d, 0 ≤ d < num_districts ↔ is_Some (result !! d)) ∧
  (∀ (i : nat) t, target_sizes !! i = Some t →
     len (group_of result (Z.of_nat i)) = Z.max 1 t) ∧
  py_sum (Z.max 1 <$> target_sizes) = Z.max 0 num_districts.
Proof.
  intros Hrun Hne.
  apply try_gluing_Ok_inv in Hrun as (_ & Hall & _ & Hgrp).
  destruct (Hall Hne) as [Hdom Hmax].
  split; [|split].
  - intros d. by rewrite <- elem_of_all_districts, <- Hdom, elem_of_dom.
  - intros i t Hi. by destruct (Hgrp i t Hi).
  - done.
Qed.

(** With no target at all the engine succeeds at its first attempt and
    assigns no district, whatever [num_districts] is. *)
Theorem glue_no_targets (district_adj : gmap Z (gset Z))
    (num_districts seed : Z) (w : world) :
  glue_districts_greedy district_adj [] num_districts seed w
    = (Ok (Some ∅), World (rseed (seed + 0)) (seed_calls w ++ [seed; seed + 0])).
Proof.
  unfold glue_districts_greedy, mbind, M_bind, random_seed.
  rewrite seqZ_cons by done. cbn [attempt_loop].
  unfold _try_gluing, mbind, M_bind, random_seed. simpl.
  by rewrite <- app_assoc.
Qed.

End GluingMore.

Definition glued_zero_target : gmap Z Z := {[ 0 := 1; 1 := 0 ]}.

Lemma try_gluing_success_covers_witness :
  _try_gluing (Ord := ascending) chain3 [0; 1] 2 42 w0
    = (Ok glued_zero_target, (_try_gluing (Ord := ascending) chain3 [0; 1] 2 42 w0).2) ∧
  [0; 1] ≠ [] ∧
  (∀ d, 0 ≤ d < 2 ↔ is_Some (glued_zero_target !! d)) ∧
  (∀ (i : nat) t, [0; 1] !! i = Some t →
     len (group_of glued_zero_target (Z.of_nat i)) = Z.max 1 t) ∧
  py_sum (Z.max 1 <$> [0; 1]) = Z.max 0 2.
Proof.
  assert ((_try_gluing (Ord := ascending) chain3 [0; 1] 2 42 w0).1 = Ok glued_zero_target)
    as Hres by (vm_compute; reflexivity).
  assert (_try_gluing (Ord := ascending) chain3 [0; 1] 2 42 w0
    = (Ok glued_zero_target, (_try_gluing (Ord := ascending) chain3 [0; 1] 2 42 w0).2)) as Hrun
    by (rewrite <- Hres; apply surjective_pairing).
  assert ([0; 1] ≠ []) as Hne by discriminate.
  split; [exact Hrun|]. split; [exact Hne|].
  exact (try_gluing_success_covers (Ord := ascending) chain3 [0; 1] 2 42 w0 glued_zero_target _
           Hrun Hne).
Defined.
